(** * nestjs-cloudinary: the CloudinaryService gateway

    A shallow embedding of [src/cloudinary.service.ts].  The service is an
    adapter around three external collaborators: the Cloudinary SDK, the
    [sharp] image library and Node's [Readable] stream.  Their calls are
    recorded, in program order, as events of a trace; their answers (the
    settled ping promise, the resize result, the upload callback) are inputs
    of the model.

    - A method body is a computation in a state and exception monad over
      [this.options] and the trace.  An [async] method or executor is cut at
      its [await]: the part up to it and the continuation are two
      definitions, the second run when the awaited promise settles.
    - Values are plain data ([JsValue]); objects are finite maps, so that
      the spreads [{ ...a, ...b }] of the source are map unions.
    - A call into the SDK, [sharp] or the logger is taken to return; what
      the vendor's [api_sign_request] computes and what
      [defaultCreateSignedUploadUrlOptions] holds (both declared outside
      this file's source) are parameters of the development. *)

From stdpp Require Import base option list strings gmap pretty relations.

#[local] Set Warnings "-register-all".
#[local] Open Scope Z_scope.

(** ** JavaScript values *)

(** Plain data as the service handles it.  Numbers are the integral ones
    (widths, timestamps, HTTP codes); objects are finite maps from property
    names to values. *)
Inductive JsValue : Type :=
| JUndefined
| JNull
| JBool (b : bool)
| JNum (n : Z)
| JStr (s : string)
| JArr (items : list JsValue)
| JObj (props : gmap string JsValue).

Abbreviation JsObject := (gmap string JsValue).
Abbreviation Buffer := (list Z).

(** An optional parameter [x?: T] of object type: [None] is [undefined]. *)
Definition of_optional (o : option JsObject) : JsValue :=
  match o with
  | None => JUndefined
  | Some props => JObj props
  end.

(** ToBoolean. *)
Definition truthy (v : JsValue) : bool :=
  match v with
  | JUndefined | JNull => false
  | JBool b => b
  | JNum n => negb (n =? 0)
  | JStr s => negb (String.eqb s "")
  | JArr _ | JObj _ => true
  end.

(** ToString, as a template literal applies it. *)
Fixpoint to_string (v : JsValue) : string :=
  match v with
  | JUndefined => "undefined"
  | JNull => "null"
  | JBool true => "true"
  | JBool false => "false"
  | JNum n => pretty n
  | JStr s => s
  | JArr items =>
      let item (x : JsValue) : string :=
        match x with
        | JUndefined | JNull => ""
        | _ => to_string x
        end in
      (fix join (l : list JsValue) : string :=
         match l with
         | [] => ""
         | [x] => item x
         | x :: rest => item x +:+ "," +:+ join rest
         end) items
  | JObj _ => "[object Object]"
  end.

(** Reading [o.k] off an object, for a name [k] that no prototype defines
    (the service reads [folder], [eager], [cloud_name], [api_key] and
    [api_secret]): an absent property reads as [undefined]. *)
Definition field (o : JsObject) (k : string) : JsValue :=
  default JUndefined (o !! k).

(** [{ ...a, ...b }]: the own properties of [a], overridden by those of [b]. *)
Definition spread (a b : JsObject) : JsObject := b ∪ a.

(** [Object.assign(target, source)]. *)
Definition Object_assign (target source : JsObject) : JsObject :=
  source ∪ target.

(** The thrown value of a failed property read. *)
Definition TypeError (message : string) : JsValue :=
  JObj {[ "name" := JStr "TypeError"; "message" := JStr message ]}.

(** ** Calls that leave the service *)

Inductive Level : Type := LLog | LWarn | LError.

(** One constructor per call on the SDK handle, on [sharp], on the upload
    stream and on the logger, with the arguments as passed. *)
Inductive Event : Type :=
| EvConfig (config : JsObject)
| EvPing
| EvUploadStream (options : JsValue)
| EvUpload (filePath : string) (options : JsValue)
| EvResize (input : Buffer) (options : JsObject)
| EvWrite (chunk : Buffer)
| EvEnd
| EvSign (params : JsObject) (api_secret : JsValue)
| EvResource (publicId : string) (options : JsValue)
| EvResources (options : JsValue)
| EvDeleteResources (publicIds : list string) (options : JsValue)
| EvUpdate (publicId : string) (options : JsValue)
| EvRename (fromPublicId toPublicId : string) (options : JsValue)
| EvDestroy (publicId : string) (options : JsValue)
| EvUrl (publicId : string) (options : JsValue)
| EvImage (publicId : string) (options : JsValue)
| EvVideo (publicId : string) (options : JsValue)
| EvLogger (level : Level) (message : JsValue).

Definition is_config (e : Event) : bool :=
  match e with EvConfig _ => true | _ => false end.
Definition is_open (e : Event) : bool :=
  match e with EvUploadStream _ => true | _ => false end.
Definition is_resize (e : Event) : bool :=
  match e with EvResize _ _ => true | _ => false end.
Definition is_write (e : Event) : bool :=
  match e with EvWrite _ | EvEnd => true | _ => false end.
Definition is_logger (e : Event) : bool :=
  match e with EvLogger _ _ => true | _ => false end.

(** The bytes that reached the upload channel. *)
Fixpoint channel_bytes (tr : list Event) : Buffer :=
  match tr with
  | [] => []
  | EvWrite chunk :: rest => chunk ++ channel_bytes rest
  | _ :: rest => channel_bytes rest
  end.

(** How many times a configuration was applied to the client handle. *)
Fixpoint count_config (tr : list Event) : nat :=
  match tr with
  | [] => O
  | e :: rest => ((if is_config e then 1 else 0) + count_config rest)%nat
  end.

(** Position of the first event of a kind. *)
Fixpoint first_index (p : Event → bool) (tr : list Event) : option nat :=
  match tr with
  | [] => None
  | e :: rest => if p e then Some O else S <$> first_index p rest
  end.

(** Both kinds occur, and the first [p] comes before the first [q]. *)
Definition happens_before (p q : Event → bool) (tr : list Event) : bool :=
  match first_index p tr, first_index q tr with
  | Some i, Some j => bool_decide (i < j)%nat
  | _, _ => false
  end.

(** ** The service object and its methods' monad *)

(** [this.options] and the calls made so far. *)
Record State : Type := {
  this_options : JsObject;
  trace : list Event;
}.

(** A method body: it may read the service, make calls, and complete
    normally ([inl]) or throw ([inr]). *)
Definition M (A : Type) : Type := State → (A + JsValue) * State.

#[export] Instance M_ret : MRet M := λ A a s, (inl a, s).
#[export] Instance M_bind : MBind M := λ A B k m s,
  match m s with
  | (inl a, s') => k a s'
  | (inr exn, s') => (inr exn, s')
  end.

Definition throw {A} (exn : JsValue) : M A := λ s, (inr exn, s).

Definition emit (e : Event) : M unit := λ s,
  (inl (), {| this_options := this_options s; trace := trace s ++ [e] |}).

Definition emits (es : list Event) : M unit := λ s,
  (inl (), {| this_options := this_options s; trace := trace s ++ es |}).

Definition this_dot_options : M JsObject := λ s, (inl (this_options s), s).

(** [v.k] for a name [k] that no prototype defines ([status], [error]):
    reading off [undefined] or [null] throws. *)
Definition get (v : JsValue) (k : string) : M JsValue :=
  match v with
  | JUndefined | JNull =>
      throw (TypeError ("Cannot read properties of " +:+ to_string v))
  | JObj props => mret (field props k)
  | _ => mret JUndefined
  end.

(** ** Promises *)

Inductive Promise : Type :=
| Pending
| Fulfilled (value : JsValue)
| Rejected (reason : JsValue).

(** The two settling functions handed to a [new Promise] executor: only the
    first call has an effect. *)
Definition resolve (value : JsValue) (p : Promise) : Promise :=
  match p with Pending => Fulfilled value | _ => p end.
Definition reject (reason : JsValue) (p : Promise) : Promise :=
  match p with Pending => Rejected reason | _ => p end.

(** [p.then(onFulfilled)], run when [p] has settled: the handler's completion
    settles the derived promise, a rejection of [p] passes through. *)
Definition promise_then (p : Promise) (onFulfilled : JsValue → M JsValue)
  : M Promise := λ s,
  match p with
  | Fulfilled value =>
      match onFulfilled value s with
      | (inl r, s') => (inl (Fulfilled r), s')
      | (inr exn, s') => (inl (Rejected exn), s')
      end
  | _ => (inl p, s)
  end.

(** [p.catch(onRejected)], likewise. *)
Definition promise_catch (p : Promise) (onRejected : JsValue → M JsValue)
  : M Promise := λ s,
  match p with
  | Rejected reason =>
      match onRejected reason s with
      | (inl r, s') => (inl (Fulfilled r), s')
      | (inr exn, s') => (inl (Rejected exn), s')
      end
  | _ => (inl p, s)
  end.

(** ** Streams *)

(** A [Readable] fed by [push]: the queued chunks and whether [push(null)]
    has been called. *)
Record Readable : Type := {
  chunks : list Buffer;
  ended : bool;
}.

Definition new_Readable : Readable := {| chunks := []; ended := false |}.

(** [stream.push(chunk)]; [None] is [push(null)].  An empty chunk queues
    nothing, and nothing is queued after the end. *)
Definition push (chunk : option Buffer) (stream : Readable) : Readable :=
  match chunk with
  | None => {| chunks := chunks stream; ended := true |}
  | Some c =>
      if ended stream then stream
      else {| chunks := chunks stream ++ (if c is [] then [] else [c]);
              ended := false |}
  end.

(** [stream.pipe(upload)]: every queued chunk is written to the upload
    channel, which is then ended if the readable has ended. *)
Definition pipe (stream : Readable) : M unit :=
  emits ((EvWrite <$> chunks stream) ++ (if ended stream then [EvEnd] else [])).

(** ** The upload pipeline *)

Record IFile : Type := {
  buffer : Buffer;
  mimetype : string;
}.

(** [mimetype.match(/^image/)] is truthy. *)
Definition match_image (mimetype : string) : bool :=
  String.prefix "image" mimetype.

(** The [async] executor of [uploadFile]: suspended at its [await] with the
    readable in scope, run to its end, or failed (its own promise, which
    nobody holds, is rejected). *)
Inductive Executor : Type :=
| ExAwaitResize (stream : Readable)
| ExCompleted
| ExRejected (reason : JsValue).

(** An upload in flight: the promise the caller holds and the executor. *)
Record Upload : Type := {
  returned : Promise;
  executor : Executor;
}.

(** Lines 96-98, common to both branches. *)
Definition uploadFile_finish (stream : Readable) : M unit :=
  let stream := push None stream in
  pipe stream.

(** [uploadFile], lines 57-100, up to the [await] of the resize branch or to
    the end of the executor. *)
Definition uploadFile (file : IFile) (options sharpOptions : option JsObject)
  : M Upload :=
  emit (EvUploadStream (of_optional options));;
  let stream := new_Readable in
  if truthy (of_optional sharpOptions) && match_image (mimetype file) then
    let options := spread {[ "width" := JNum 800 ]} (default ∅ sharpOptions) in
    emit (EvResize (buffer file) options);;
    mret {| returned := Pending; executor := ExAwaitResize stream |}
  else
    let stream := push (Some (buffer file)) stream in
    uploadFile_finish stream;;
    mret {| returned := Pending; executor := ExCompleted |}.

(** The awaited [sharp(...).resize(options).toBuffer()] settles: with the
    resized buffer ([inl]) the executor resumes at line 92, with a failure
    ([inr]) the [await] throws inside the executor. *)
Definition uploadFile_resized (outcome : Buffer + JsValue) (u : Upload)
  : M Upload :=
  match executor u with
  | ExAwaitResize stream =>
      match outcome with
      | inl shrinkedImage =>
          let stream := push (Some shrinkedImage) stream in
          uploadFile_finish stream;;
          mret {| returned := returned u; executor := ExCompleted |}
      | inr reason =>
          mret {| returned := returned u; executor := ExRejected reason |}
      end
  | _ => mret u
  end.

(** The callback given to [upload_stream], lines 65-81. *)
Definition uploadFile_callback (error result : JsValue) (u : Upload)
  : M Upload :=
  if truthy error then
    emit (EvLogger LError error);;
    mret {| returned := reject error (returned u); executor := executor u |}
  else
    mret {| returned := resolve result (returned u); executor := executor u |}.

(** [uploadFileByPath], lines 109-126: the executor is synchronous. *)
Definition uploadFileByPath (filePath : string) (options : option JsObject)
  : M Upload :=
  emit (EvUpload filePath (of_optional options));;
  mret {| returned := Pending; executor := ExCompleted |}.

(** The callback given to [upload], lines 117-123. *)
Definition uploadFileByPath_callback (error result : JsValue) (u : Upload)
  : M Upload :=
  if truthy error then
    emit (EvLogger LError error);;
    mret {| returned := reject error (returned u); executor := executor u |}
  else
    mret {| returned := resolve result (returned u); executor := executor u |}.

(** ** The connectivity check *)

(** [pingCloudinary], lines 35-45: the probe is fired, the handlers are
    attached, and the method falls off its end. *)
Definition pingCloudinary : M JsValue :=
  emit EvPing;;
  mret JUndefined.

Definition pingCloudinary_then (res : JsValue) : M JsValue :=
  status ← get res "status";
  emit (EvLogger LLog (JStr ("Cloudinary connection " +:+ to_string status)));;
  mret JUndefined.

Definition pingCloudinary_catch (err : JsValue) : M JsValue :=
  emit (EvLogger LWarn (JStr "Cloudinary connection failed."));;
  error ← get err "error";
  emit (EvLogger LError error);;
  mret JUndefined.

(** The chain [ping().then(...).catch(...)] once the probe has settled; the
    result is the state of the last promise of the chain, which the method
    does not return. *)
Definition pingCloudinary_settled (ping : Promise) : M Promise :=
  p ← promise_then ping pingCloudinary_then;
  promise_catch p pingCloudinary_catch.

(** ** Passthroughs *)

(** What a passthrough hands back: whatever the SDK call returned. *)
Inductive Returned : Type :=
| SdkReturn (call : Event).

Definition sdk (call : Event) : M Returned :=
  emit call;;
  mret (SdkReturn call).

Definition getAsset (publicId : string) (options : JsValue) : M Returned :=
  sdk (EvResource publicId options).
Definition listAssets (options : JsValue) : M Returned :=
  sdk (EvResources options).
Definition deleteAssets (publicIds : list string) (options : JsValue)
  : M Returned :=
  sdk (EvDeleteResources publicIds options).
Definition updateAsset (publicId : string) (options : JsValue) : M Returned :=
  sdk (EvUpdate publicId options).
Definition renameAsset (fromPublicId toPublicId : string) (options : JsValue)
  : M Returned :=
  sdk (EvRename fromPublicId toPublicId options).
Definition deleteAsset (publicId : string) (options : JsValue) : M Returned :=
  sdk (EvDestroy publicId options).
Definition getTransformedUrl (publicId : string) (options : JsValue)
  : M Returned :=
  sdk (EvUrl publicId options).
Definition getImageTag (publicId : string) (options : JsValue) : M Returned :=
  sdk (EvImage publicId options).
Definition getVideoTag (publicId : string) (options : JsValue) : M Returned :=
  sdk (EvVideo publicId options).

(** ** Construction *)

(** The constructor, lines 28-33, on a client handle with calls [tr] behind
    it: the options are stored and a copy of them is applied to the handle. *)
Definition new_CloudinaryService (options : JsObject) (tr : list Event)
  : State :=
  {| this_options := options;
     trace := tr ++ [EvConfig (Object_assign ∅ options)] |}.

(** ** Signed upload URLs and the gateway as a whole *)

Section Gateway.

(** [cloudinary.utils.api_sign_request], the vendor's signing function of
    a parameter object and a secret. *)
Variable api_sign_request : JsObject → JsValue → string.

(** The constant of [cloudinary.constant.ts]. *)
Variable defaultCreateSignedUploadUrlOptions : JsObject.

(** [createSignedUploadUrl], lines 135-164.  [Date_now] is the value of
    [Date.now()], in milliseconds; [Math.floor(Date_now / 1000)] is the
    integer quotient.  The method is [async]: its normal completion is the
    value its promise is fulfilled with. *)
Definition createSignedUploadUrl (Date_now : Z)
    (publicId resourceType : string) (options : option JsObject)
  : M JsObject :=
  let options :=
    spread defaultCreateSignedUploadUrlOptions (default ∅ options) in
  this_options ← this_dot_options;
  let url :=
    "https://api.cloudinary.com/v1_1/"
      +:+ to_string (field this_options "cloud_name")
      +:+ "/" +:+ resourceType +:+ "/upload" in
  let timestamp := pretty (Date_now `div` 1000) in
  let params : JsObject :=
    {[ "timestamp" := JStr timestamp;
       "folder" := field options "folder";
       "eager" := field options "eager";
       "public_id" := JStr publicId ]} in
  emit (EvSign params (field this_options "api_secret"));;
  let signature :=
    api_sign_request params (field this_options "api_secret") in
  mret ({[ "url" := JStr url;
           "publicId" := JStr publicId;
           "apiKey" := field this_options "api_key";
           "timestamp" := JStr timestamp;
           "eager" := field options "eager";
           "folder" := field options "folder";
           "signature" := JStr signature ]} : JsObject).

(** The parameter object a client rebuilds from a returned structure to
    check its signature. *)
Definition signed_params (r : JsObject) : JsObject :=
  {[ "timestamp" := field r "timestamp";
     "folder" := field r "folder";
     "eager" := field r "eager";
     "public_id" := field r "publicId" ]}.

(** A call of a gateway method with its arguments. *)
Inductive Call : Type :=
| CallPingCloudinary
| CallUploadFile (file : IFile) (options sharpOptions : option JsObject)
| CallUploadFileByPath (filePath : string) (options : option JsObject)
| CallCreateSignedUploadUrl (Date_now : Z) (publicId resourceType : string)
    (options : option JsObject)
| CallGetAsset (publicId : string) (options : JsValue)
| CallListAssets (options : JsValue)
| CallDeleteAssets (publicIds : list string) (options : JsValue)
| CallUpdateAsset (publicId : string) (options : JsValue)
| CallRenameAsset (fromPublicId toPublicId : string) (options : JsValue)
| CallDeleteAsset (publicId : string) (options : JsValue)
| CallGetTransformedUrl (publicId : string) (options : JsValue)
| CallGetImageTag (publicId : string) (options : JsValue)
| CallGetVideoTag (publicId : string) (options : JsValue).

Definition discard {A} (m : M A) : M unit := m;; mret ().

(** The synchronous part of a call. *)
Definition invoke (c : Call) : M unit :=
  match c with
  | CallPingCloudinary => discard pingCloudinary
  | CallUploadFile file options sharpOptions =>
      discard (uploadFile file options sharpOptions)
  | CallUploadFileByPath filePath options =>
      discard (uploadFileByPath filePath options)
  | CallCreateSignedUploadUrl Date_now publicId resourceType options =>
      discard (createSignedUploadUrl Date_now publicId resourceType options)
  | CallGetAsset publicId options => discard (getAsset publicId options)
  | CallListAssets options => discard (listAssets options)
  | CallDeleteAssets publicIds options =>
      discard (deleteAssets publicIds options)
  | CallUpdateAsset publicId options => discard (updateAsset publicId options)
  | CallRenameAsset fromPublicId toPublicId options =>
      discard (renameAsset fromPublicId toPublicId options)
  | CallDeleteAsset publicId options => discard (deleteAsset publicId options)
  | CallGetTransformedUrl publicId options =>
      discard (getTransformedUrl publicId options)
  | CallGetImageTag publicId options => discard (getImageTag publicId options)
  | CallGetVideoTag publicId options => discard (getVideoTag publicId options)
  end.

(** The option objects the caller supplied with a call. *)
Definition supplied (c : Call) : list JsValue :=
  match c with
  | CallPingCloudinary => []
  | CallUploadFile _ options sharpOptions =>
      [of_optional options; of_optional sharpOptions]
  | CallUploadFileByPath _ options
  | CallCreateSignedUploadUrl _ _ _ options => [of_optional options]
  | CallGetAsset _ options
  | CallListAssets options
  | CallDeleteAssets _ options
  | CallUpdateAsset _ options
  | CallRenameAsset _ _ options
  | CallDeleteAsset _ options
  | CallGetTransformedUrl _ options
  | CallGetImageTag _ options
  | CallGetVideoTag _ options => [options]
  end.

(** The option objects an outgoing call carries. *)
Definition passed (e : Event) : list JsValue :=
  match e with
  | EvUploadStream options
  | EvUpload _ options
  | EvResource _ options
  | EvResources options
  | EvDeleteResources _ options
  | EvUpdate _ options
  | EvRename _ _ options
  | EvDestroy _ options
  | EvUrl _ options
  | EvImage _ options
  | EvVideo _ options => [options]
  | EvResize _ options => [JObj options]
  | EvConfig _ | EvPing | EvWrite _ | EvEnd | EvSign _ _ | EvLogger _ _ => []
  end.

(** The calls a piece of code adds to the trace. *)
Definition emitted {A} (m : M A) (s : State) : list Event :=
  drop (length (trace s)) (trace (m s).2).

(** Everything the gateway ever runs: the synchronous part of a call, or
    one of the continuations the event loop resumes. *)
Inductive gateway_step : State → State → Prop :=
| step_invoke c s :
    gateway_step s (invoke c s).2
| step_ping_settled ping s :
    gateway_step s (pingCloudinary_settled ping s).2
| step_resized outcome u s :
    gateway_step s (uploadFile_resized outcome u s).2
| step_callback error result u s :
    gateway_step s (uploadFile_callback error result u s).2
| step_callback_by_path error result u s :
    gateway_step s (uploadFileByPath_callback error result u s).2.

(** [uploadFile] and then the settlement of its resize, if it awaits one. *)
Definition uploadFile_then_resized (file : IFile)
    (options sharpOptions : option JsObject) (outcome : Buffer + JsValue)
  : M Upload :=
  u ← uploadFile file options sharpOptions;
  uploadFile_resized outcome u.

(** A piece of code that leaves [this.options] alone and only adds calls
    other than [config] to the trace. *)
Definition quiet {A} (m : M A) : Prop :=
  ∀ s, this_options (m s).2 = this_options s
       ∧ ∃ es, trace (m s).2 = trace s ++ es ∧ count_config es = O.

(** The claim that defaults are merged in [createSignedUploadUrl] only:
    any other call passes on nothing but what its caller supplied. *)
Definition defaults_only_when_signing : Prop :=
  ∀ c s e o,
    (∀ t p r opts, c ≠ CallCreateSignedUploadUrl t p r opts) →
    e ∈ emitted (invoke c) s → o ∈ passed e → o ∈ supplied c.

(** The claim that the resize step comes before the upload channel is
    opened. *)
Definition resize_before_open (file : IFile)
    (options sharpOptions : option JsObject) (outcome : Buffer + JsValue)
    (s : State) : Prop :=
  happens_before is_resize is_open
    (emitted (uploadFile_then_resized file options sharpOptions outcome) s)
  = true.

(** ** Sample inputs *)

Definition sample_png : IFile :=
  {| buffer := [137; 80; 78; 71]; mimetype := "image/png" |}.

Definition sample_pdf : IFile :=
  {| buffer := [37; 80; 68; 70]; mimetype := "application/pdf" |}.

Definition sample_options : JsObject :=
  {[ "cloud_name" := JStr "demo";
     "api_key" := JStr "1234";
     "api_secret" := JStr "s3cret" ]}.

Definition sample_service : State := new_CloudinaryService sample_options [].

(** A stand-in for the vendor's signing function. *)
Definition sample_sign (params : JsObject) (api_secret : JsValue) : string :=
  to_string (field params "public_id") +:+ "@"
    +:+ to_string (field params "timestamp") +:+ to_string api_secret.

(** ** An upload in flight and what the event loop feeds it *)

(** What can arrive for a pending [uploadFile]: the settlement of the
    awaited resize, or a call of the callback given to [upload_stream]. *)
Inductive Input : Type :=
| InResized (outcome : Buffer + JsValue)
| InCallback (error result : JsValue).

Definition deliver (i : Input) (u : Upload) : M Upload :=
  match i with
  | InResized outcome => uploadFile_resized outcome u
  | InCallback error result => uploadFile_callback error result u
  end.

Fixpoint deliver_all (inputs : list Input) (u : Upload) : M Upload :=
  match inputs with
  | [] => mret u
  | i :: rest => u' ← deliver i u; deliver_all rest u'
  end.

(** The same for [uploadFileByPath], whose only inputs are calls of its
    callback with an error and a result. *)
Fixpoint deliver_all_by_path (callbacks : list (JsValue * JsValue))
    (u : Upload) : M Upload :=
  match callbacks with
  | [] => mret u
  | (error, result) :: rest =>
      u' ← uploadFileByPath_callback error result u;
      deliver_all_by_path rest u'
  end.

(** How a callback with these arguments settles a pending promise. *)
Definition verdict (error result : JsValue) : Promise :=
  if truthy error then Rejected error else Fulfilled result.

(** The verdict of the first callback among the inputs, if there is one. *)
Fixpoint first_verdict (inputs : list Input) : Promise :=
  match inputs with
  | [] => Pending
  | InCallback error result :: _ => verdict error result
  | InResized _ :: rest => first_verdict rest
  end.

(** The first resize settlement among the inputs, if there is one. *)
Fixpoint first_resized (inputs : list Input) : option (Buffer + JsValue) :=
  match inputs with
  | [] => None
  | InResized outcome :: _ => Some outcome
  | InCallback _ _ :: rest => first_resized rest
  end.

(** One error entry for each callback that carries an error. *)
Fixpoint error_logs (inputs : list Input) : list Event :=
  match inputs with
  | [] => []
  | InCallback error _ :: rest =>
      (if truthy error then [EvLogger LError error] else [])
      ++ error_logs rest
  | InResized _ :: rest => error_logs rest
  end.

(** The logger calls of a trace, and its writes and ends on the channel. *)
Fixpoint logger_events (tr : list Event) : list Event :=
  match tr with
  | [] => []
  | e :: rest =>
      if is_logger e then e :: logger_events rest else logger_events rest
  end.

Fixpoint channel_events (tr : list Event) : list Event :=
  match tr with
  | [] => []
  | e :: rest =>
      if is_write e then e :: channel_events rest else channel_events rest
  end.

(** A buffer sent whole and the end-of-input signal after it. *)
Definition streamed (buf : Buffer) : list Event :=
  (if buf is [] then [] else [EvWrite buf]) ++ [EvEnd].

(** ** Sequences of calls *)

Definition is_passthrough (c : Call) : bool :=
  match c with
  | CallPingCloudinary
  | CallUploadFile _ _ _
  | CallUploadFileByPath _ _
  | CallCreateSignedUploadUrl _ _ _ _ => false
  | _ => true
  end.

Fixpoint invoke_all (cs : list Call) : M unit :=
  match cs with
  | [] => mret ()
  | c :: rest => invoke c;; invoke_all rest
  end.

(** A service with the configuration of the sample but another secret, and
    one with no configuration at all. *)
Definition other_secret_service : State :=
  new_CloudinaryService (<[ "api_secret" := JStr "0ther" ]> sample_options) [].


(** ** Running the monad *)

Lemma bind_inl {A B} (m : M A) (k : A → M B) s a s' :
  m s = (inl a, s') → (m ≫= k) s = k a s'.
Proof. intros Hm. unfold mbind, M_bind. by rewrite Hm. Qed.

Lemma bind_inr {A B} (m : M A) (k : A → M B) s exn s' :
  m s = (inr exn, s') → (m ≫= k) s = (inr exn, s').
Proof. intros Hm. unfold mbind, M_bind. by rewrite Hm. Qed.

Lemma emitted_app {A} (m : M A) s es :
  trace (m s).2 = trace s ++ es → emitted m s = es.
Proof. intros Htr. unfold emitted. rewrite Htr. apply drop_app_length. Qed.

Lemma count_config_app tr1 tr2 :
  count_config (tr1 ++ tr2) = (count_config tr1 + count_config tr2)%nat.
Proof. induction tr1 as [|e tr1 IH]; simpl; [done | rewrite IH; lia]. Qed.

Lemma channel_bytes_app tr1 tr2 :
  channel_bytes (tr1 ++ tr2) = channel_bytes tr1 ++ channel_bytes tr2.
Proof.
  induction tr1 as [|e tr1 IH]; simpl; [done |].
  destruct e; simpl; rewrite ?IH; try done. by rewrite app_assoc.
Qed.

(** ** Quiet code *)

Lemma quiet_ret {A} (a : A) : quiet (mret a).
Proof. intros s. split; [done |]. exists []. by rewrite app_nil_r. Qed.

Lemma quiet_throw {A} exn : quiet (@throw A exn).
Proof. intros s. split; [done |]. exists []. by rewrite app_nil_r. Qed.

Lemma quiet_emits es : count_config es = O → quiet (emits es).
Proof. intros Hes s. split; [done |]. by exists es. Qed.

Lemma quiet_emit e : is_config e = false → quiet (emit e).
Proof.
  intros He s. split; [done |]. exists [e]. split; [done |].
  simpl. by rewrite He.
Qed.

Lemma quiet_bind {A B} (m : M A) (k : A → M B) :
  quiet m → (∀ a, quiet (k a)) → quiet (m ≫= k).
Proof.
  intros Hm Hk s. destruct (Hm s) as (Ho & es & Htr & Hes).
  unfold mbind, M_bind. destruct (m s) as [[a|exn] s1]; simpl in *.
  - destruct (Hk a s1) as (Ho' & es' & Htr' & Hes').
    split; [congruence |]. exists (es ++ es').
    rewrite Htr', Htr, count_config_app, Hes, Hes'. by rewrite app_assoc.
  - split; [done |]. by exists es.
Qed.

Lemma quiet_this_dot_options : quiet this_dot_options.
Proof. intros s. split; [done |]. exists []. by rewrite app_nil_r. Qed.

Lemma quiet_get v k : quiet (get v k).
Proof. destruct v; simpl; auto using quiet_ret, quiet_throw. Qed.

(** ** The connectivity check never fails its caller *)

Ltac run :=
  unfold mbind, M_bind, mret, M_ret, throw, emit, emits, this_dot_options;
  simpl.

(** C1.  Whatever the remote ping call does (it succeeds, it fails, or it has
    not answered yet), [pingCloudinary] completes normally and returns
    [undefined], not a promise; once the probe has settled, the handlers
    leave the service as it is and only add logger calls: the status on
    success, the warning that the connection failed and the error on
    failure. *)
Theorem pingCloudinary_never_raises (ping : Promise) (s : State) :
  ∃ s1 chain s2 logs,
    pingCloudinary s = (inl JUndefined, s1)
    ∧ this_options s1 = this_options s
    ∧ trace s1 = trace s ++ [EvPing]
    ∧ pingCloudinary_settled ping s1 = (inl chain, s2)
    ∧ this_options s2 = this_options s
    ∧ trace s2 = trace s1 ++ logs
    ∧ forallb is_logger logs = true
    ∧ match ping with
      | Pending => logs = [] ∧ chain = Pending
      | Fulfilled (JObj res) =>
          logs = [EvLogger LLog
                    (JStr ("Cloudinary connection "
                             +:+ to_string (field res "status")))]
          ∧ chain = Fulfilled JUndefined
      | Fulfilled (JUndefined | JNull) =>
          logs = [EvLogger LWarn (JStr "Cloudinary connection failed.");
                  EvLogger LError JUndefined]
          ∧ chain = Fulfilled JUndefined
      | Fulfilled _ =>
          logs = [EvLogger LLog (JStr "Cloudinary connection undefined")]
          ∧ chain = Fulfilled JUndefined
      | Rejected (JObj err) =>
          logs = [EvLogger LWarn (JStr "Cloudinary connection failed.");
                  EvLogger LError (field err "error")]
          ∧ chain = Fulfilled JUndefined
      | Rejected _ =>
          head logs
          = Some (EvLogger LWarn (JStr "Cloudinary connection failed."))
      end.
Proof.
  destruct ping as [|res|err]; [| destruct res | destruct err];
    eexists _, _, _, _; repeat split; try reflexivity; simpl;
    try (rewrite <- ?app_assoc; reflexivity);
    try (rewrite app_nil_r; reflexivity);
    reflexivity.
Qed.

(** ** The upload pipeline *)

Lemma spread_lookup (a b : JsObject) k :
  spread a b !! k = match b !! k with Some v => Some v | None => a !! k end.
Proof.
  unfold spread. rewrite lookup_union.
  by destruct (b !! k), (a !! k).
Qed.

Lemma resize_options_lookup (so : JsObject) k :
  spread {[ "width" := JNum 800 ]} so !! k
  = if decide (k = "width") then Some (default (JNum 800) (so !! k))
    else so !! k.
Proof.
  rewrite spread_lookup. case_decide as Hk.
  - subst k. rewrite lookup_singleton_eq. by destruct (so !! "width").
  - rewrite lookup_singleton_ne by done. by destruct (so !! k).
Qed.

Lemma uploadFile_finish_push buf s :
  uploadFile_finish (push (Some buf) new_Readable) s
  = (inl (),
     {| this_options := this_options s;
        trace := trace s ++ (if buf is [] then [] else [EvWrite buf])
                         ++ [EvEnd] |}).
Proof. by destruct buf. Qed.

Lemma channel_bytes_stream buf :
  channel_bytes ((if buf is [] then [] else [EvWrite buf]) ++ [EvEnd]) = buf.
Proof. destruct buf; simpl; [done |]. by rewrite app_nil_r. Qed.

(** The resize branch, up to its [await]. *)
Lemma uploadFile_image file options so s :
  match_image (mimetype file) = true →
  uploadFile file options (Some so) s
  = (inl {| returned := Pending; executor := ExAwaitResize new_Readable |},
     {| this_options := this_options s;
        trace := trace s
                 ++ [EvUploadStream (of_optional options);
                     EvResize (buffer file)
                       (spread {[ "width" := JNum 800 ]} so)] |}).
Proof.
  intros Himg. unfold uploadFile. run. rewrite Himg. simpl.
  by rewrite <- app_assoc.
Qed.

(** The other branch, to the end of the executor. *)
Lemma uploadFile_plain file options sharpOptions s :
  truthy (of_optional sharpOptions) && match_image (mimetype file) = false →
  uploadFile file options sharpOptions s
  = (inl {| returned := Pending; executor := ExCompleted |},
     {| this_options := this_options s;
        trace := trace s
                 ++ [EvUploadStream (of_optional options)]
                 ++ (if buffer file is [] then [] else [EvWrite (buffer file)])
                 ++ [EvEnd] |}).
Proof.
  intros Hno. unfold uploadFile. run. rewrite Hno.
  destruct (buffer file); simpl; by rewrite <- app_assoc.
Qed.

(** C3.  For a file whose media type matches [/^image/] and resize options
    that are present, [uploadFile] hands [sharp] the file's buffer with the
    options [{ width: 800, ...sharpOptions }] (the width is 800 unless the
    caller has a [width] property, every caller property is kept), and what
    is then written to the upload channel is the resized output; if the
    resize fails nothing is written. *)
Theorem uploadFile_streams_resized_image file options so outcome s :
  match_image (mimetype file) = true →
  ∃ u s1 u' s2,
    uploadFile file options (Some so) s = (inl u, s1)
    ∧ emitted (uploadFile file options (Some so)) s
      = [EvUploadStream (of_optional options);
         EvResize (buffer file) (spread {[ "width" := JNum 800 ]} so)]
    ∧ (∀ k, spread {[ "width" := JNum 800 ]} so !! k
            = if decide (k = "width")
              then Some (default (JNum 800) (so !! k))
              else so !! k)
    ∧ uploadFile_resized outcome u s1 = (inl u', s2)
    ∧ channel_bytes
        (emitted (uploadFile_then_resized file options (Some so) outcome) s)
      = match outcome with
        | inl shrinkedImage => shrinkedImage
        | inr _ => []
        end.
Proof.
  intros Himg. pose proof (uploadFile_image file options so s Himg) as Hup.
  destruct outcome as [shrinkedImage|reason]; eexists _, _, _, _;
    (split; [exact Hup |]);
    (split; [apply emitted_app; by rewrite Hup |]);
    (split; [apply resize_options_lookup |]).
  - split; [unfold uploadFile_resized; run; reflexivity |].
    erewrite emitted_app.
    2:{ unfold uploadFile_then_resized. erewrite bind_inl by exact Hup.
        unfold uploadFile_resized. run. rewrite <- app_assoc. reflexivity. }
    rewrite channel_bytes_app. simpl.
    destruct shrinkedImage; simpl; [done |]. by rewrite app_nil_r.
  - split; [reflexivity |].
    erewrite emitted_app.
    2:{ unfold uploadFile_then_resized. erewrite bind_inl by exact Hup.
        reflexivity. }
    reflexivity.
Qed.

Lemma uploadFile_streams_resized_image_witness :
  match_image (mimetype sample_png) = true
  ∧ channel_bytes
      (emitted
         (uploadFile_then_resized sample_png None (Some ∅) (inl [1; 2; 3]))
         sample_service)
    = [1; 2; 3].
Proof.
  split; [reflexivity |].
  destruct (uploadFile_streams_resized_image sample_png None ∅
              (inl [1; 2; 3]) sample_service eq_refl)
    as (u & s1 & u' & s2 & _ & _ & _ & _ & Hbytes).
  exact Hbytes.
Defined.

(** C4.  When the resize options are absent, or the file's media type does
    not match [/^image/], [uploadFile] calls no resize and writes the
    file's own buffer, unchanged, to the upload channel; for a media type
    that does not match, the call is the same whatever resize options are
    given. *)
Theorem uploadFile_streams_original file options sharpOptions s :
  sharpOptions = None ∨ match_image (mimetype file) = false →
  ∃ u s1,
    uploadFile file options sharpOptions s = (inl u, s1)
    ∧ executor u = ExCompleted
    ∧ emitted (uploadFile file options sharpOptions) s
      = [EvUploadStream (of_optional options)]
        ++ (if buffer file is [] then [] else [EvWrite (buffer file)])
        ++ [EvEnd]
    ∧ channel_bytes (emitted (uploadFile file options sharpOptions) s)
      = buffer file
    ∧ first_index is_resize (emitted (uploadFile file options sharpOptions) s)
      = None
    ∧ if match_image (mimetype file) then True
      else ∀ other,
        uploadFile file options sharpOptions s
        = uploadFile file options other s.
Proof.
  intros Hno.
  assert (∀ so, so = None ∨ match_image (mimetype file) = false →
            truthy (of_optional so) && match_image (mimetype file) = false)
    as Hcond.
  { intros so [-> | Himg]; [done |]. rewrite Himg. apply andb_false_r. }
  pose proof (uploadFile_plain file options sharpOptions s (Hcond _ Hno))
    as Hup.
  eexists _, _. split; [exact Hup |]. split; [reflexivity |].
  erewrite emitted_app by (by rewrite Hup). split; [reflexivity |].
  split; [destruct (buffer file); simpl; by rewrite ?app_nil_r |].
  split; [by destruct (buffer file) |].
  destruct (match_image (mimetype file)) eqn:Himg; [done |].
  intros other. rewrite Hup. symmetry. apply uploadFile_plain.
  rewrite Himg. apply andb_false_r.
Qed.

Lemma uploadFile_streams_original_witness :
  (Some (∅ : JsObject) = None ∨ match_image (mimetype sample_pdf) = false)
  ∧ channel_bytes
      (emitted (uploadFile sample_pdf None (Some ∅)) sample_service)
    = buffer sample_pdf.
Proof.
  assert (Some (∅ : JsObject) = None ∨ match_image (mimetype sample_pdf) = false)
    as Hno by (right; reflexivity).
  split; [exact Hno |].
  destruct (uploadFile_streams_original sample_pdf None (Some ∅)
              sample_service Hno)
    as (u & s1 & _ & _ & _ & Hbytes & _).
  exact Hbytes.
Defined.

(** C5.  At a file of image type whose resize fails, the promise that
    [uploadFile] returned is still pending after the failure: the failure
    rejects only the executor's own promise, and nothing was written to the
    channel that was opened. *)
Theorem uploadFile_resize_failure_leaves_promise_pending :
  ∃ u s1,
    uploadFile_then_resized sample_png None (Some ∅)
      (inr (JStr "Input buffer contains unsupported image format"))
      sample_service
    = (inl u, s1)
    ∧ returned u = Pending
    ∧ returned u
      ≠ Rejected (JStr "Input buffer contains unsupported image format")
    ∧ executor u
      = ExRejected (JStr "Input buffer contains unsupported image format")
    ∧ drop (length (trace sample_service)) (trace s1)
      = [EvUploadStream JUndefined;
         EvResize (buffer sample_png) {[ "width" := JNum 800 ]}].
Proof.
  eexists _, _. split; [reflexivity |].
  split; [reflexivity |]. split; [discriminate |].
  split; reflexivity.
Qed.

(** The same for every image file, every options and every failure. *)
Lemma uploadFile_resize_failure_pending file options so reason s :
  match_image (mimetype file) = true →
  ∃ u s1,
    uploadFile_then_resized file options (Some so) (inr reason) s
    = (inl u, s1)
    ∧ returned u = Pending
    ∧ executor u = ExRejected reason.
Proof.
  intros Himg. eexists _, _. split.
  - unfold uploadFile_then_resized.
    erewrite bind_inl by (by apply uploadFile_image). reflexivity.
  - split; reflexivity.
Qed.

(** ** Order of the resize and the channel *)

(** C6, as stated, fails: on a PNG with resize options present, the upload
    channel is opened first and the resize comes second. *)
Lemma resize_before_open_fails :
  ¬ resize_before_open sample_png None (Some ∅) (inl [1; 2; 3])
      sample_service.
Proof. unfold resize_before_open. vm_compute. discriminate. Qed.

(** C6, amended.  For a file of image type and resize options that are
    present, [uploadFile] first opens the upload channel and then performs
    the resize; the resize in turn comes before anything is written to the
    channel. *)
Theorem uploadFile_opens_then_resizes file options so shrinkedImage s :
  match_image (mimetype file) = true →
  emitted (uploadFile_then_resized file options (Some so) (inl shrinkedImage))
    s
  = [EvUploadStream (of_optional options);
     EvResize (buffer file) (spread {[ "width" := JNum 800 ]} so)]
    ++ (if shrinkedImage is [] then [] else [EvWrite shrinkedImage])
    ++ [EvEnd]
  ∧ happens_before is_open is_resize
      (emitted
         (uploadFile_then_resized file options (Some so) (inl shrinkedImage))
         s)
    = true
  ∧ happens_before is_resize is_write
      (emitted
         (uploadFile_then_resized file options (Some so) (inl shrinkedImage))
         s)
    = true.
Proof.
  intros Himg.
  assert (emitted
            (uploadFile_then_resized file options (Some so)
               (inl shrinkedImage)) s
          = [EvUploadStream (of_optional options);
             EvResize (buffer file) (spread {[ "width" := JNum 800 ]} so)]
            ++ (if shrinkedImage is [] then [] else [EvWrite shrinkedImage])
            ++ [EvEnd]) as Hev.
  { apply emitted_app. unfold uploadFile_then_resized.
    erewrite bind_inl by (by apply uploadFile_image).
    unfold uploadFile_resized. run. rewrite <- app_assoc.
    by destruct shrinkedImage. }
  rewrite Hev. split; [done |]. by destruct shrinkedImage.
Qed.

Lemma uploadFile_opens_then_resizes_witness :
  match_image (mimetype sample_png) = true
  ∧ happens_before is_open is_resize
      (emitted
         (uploadFile_then_resized sample_png None (Some ∅) (inl [1; 2; 3]))
         sample_service)
    = true.
Proof.
  split; [reflexivity |].
  destruct (uploadFile_opens_then_resizes sample_png None ∅ [1; 2; 3]
              sample_service eq_refl) as (_ & Horder & _).
  exact Horder.
Defined.

(** ** Settlement by the upload callback *)

Lemma uploadFile_pending file options sharpOptions s :
  ∃ u s1,
    uploadFile file options sharpOptions s = (inl u, s1)
    ∧ returned u = Pending.
Proof.
  destruct (truthy (of_optional sharpOptions) && match_image (mimetype file))
    eqn:Hcond.
  - destruct sharpOptions as [so|]; [| done].
    apply andb_true_iff in Hcond as [_ Himg].
    eexists _, _. split; [by apply uploadFile_image | done].
  - eexists _, _. split; [by apply uploadFile_plain | done].
Qed.

Lemma uploadFile_resized_pending outcome u s :
  ∃ u' s1,
    uploadFile_resized outcome u s = (inl u', s1)
    ∧ returned u' = returned u.
Proof.
  unfold uploadFile_resized.
  destruct (executor u), outcome; eexists _, _; split; reflexivity.
Qed.

(** C8.  [uploadFile] (whether or not a resize has settled in between) and
    [uploadFileByPath]: when the remote upload calls back with an error, the
    error is logged at error severity and the returned promise is rejected
    with that very error; when it calls back without one, the promise is
    fulfilled with the response as given and nothing is logged. *)
Theorem upload_callback_settles_promise
    file filePath options sharpOptions
    (resized : option (Buffer + JsValue)) error result s :
  (∃ u s1 u' s2,
     (u ← uploadFile file options sharpOptions;
      match resized with
      | Some outcome => uploadFile_resized outcome u
      | None => mret u
      end) s = (inl u, s1)
     ∧ uploadFile_callback error result u s1 = (inl u', s2)
     ∧ returned u'
       = (if truthy error then Rejected error else Fulfilled result)
     ∧ trace s2
       = trace s1 ++ (if truthy error then [EvLogger LError error] else []))
  ∧ (∃ u s1 u' s2,
       uploadFileByPath filePath options s = (inl u, s1)
       ∧ uploadFileByPath_callback error result u s1 = (inl u', s2)
       ∧ returned u'
         = (if truthy error then Rejected error else Fulfilled result)
       ∧ trace s2
         = trace s1 ++ (if truthy error then [EvLogger LError error] else [])).
Proof.
  split.
  - destruct (uploadFile_pending file options sharpOptions s)
      as (u0 & s0 & Hup & Hpend).
    assert (∃ u s1,
              (u ← uploadFile file options sharpOptions;
               match resized with
               | Some outcome => uploadFile_resized outcome u
               | None => mret u
               end) s = (inl u, s1) ∧ returned u = Pending)
      as (u & s1 & Hrun & Hu).
    { destruct resized as [outcome|].
      - destruct (uploadFile_resized_pending outcome u0 s0)
          as (u & s1 & Hres & Hret).
        exists u, s1. split; [| congruence].
        by erewrite bind_inl by exact Hup.
      - exists u0, s0. split; [| done]. by erewrite bind_inl by exact Hup. }
    exists u, s1. unfold uploadFile_callback. run.
    destruct (truthy error); eexists _, _; simpl; rewrite Hu;
      repeat split; simpl; by rewrite ?app_nil_r.
  - unfold uploadFileByPath, uploadFileByPath_callback. run.
    destruct (truthy error); eexists _, _, _, _;
      repeat split; simpl; by rewrite ?app_nil_r.
Qed.

(** ** Signed upload URLs *)

Lemma createSignedUploadUrl_run Date_now publicId resourceType options s :
  let merged :=
    spread defaultCreateSignedUploadUrlOptions (default ∅ options) in
  let params : JsObject :=
    {[ "timestamp" := JStr (pretty (Date_now `div` 1000));
       "folder" := field merged "folder";
       "eager" := field merged "eager";
       "public_id" := JStr publicId ]} in
  createSignedUploadUrl Date_now publicId resourceType options s
  = (inl {[ "url" :=
              JStr ("https://api.cloudinary.com/v1_1/"
                      +:+ to_string (field (this_options s) "cloud_name")
                      +:+ "/" +:+ resourceType +:+ "/upload");
            "publicId" := JStr publicId;
            "apiKey" := field (this_options s) "api_key";
            "timestamp" := JStr (pretty (Date_now `div` 1000));
            "eager" := field merged "eager";
            "folder" := field merged "folder";
            "signature" :=
              JStr (api_sign_request params
                      (field (this_options s) "api_secret")) ]},
     {| this_options := this_options s;
        trace := trace s
                 ++ [EvSign params (field (this_options s) "api_secret")] |}).
Proof. reflexivity. Qed.

(** C2.  The signature that [createSignedUploadUrl] returns is the vendor's
    signing function applied, with the configured secret, to the object
    with exactly the properties [timestamp], [folder], [eager] and
    [public_id]; rebuilding that object from the returned structure and
    signing it again gives the same signature, and the result depends on
    the clock only through the whole second. *)
Theorem createSignedUploadUrl_signature
    Date_now publicId resourceType options s :
  ∃ r s1,
    createSignedUploadUrl Date_now publicId resourceType options s
    = (inl r, s1)
    ∧ dom (signed_params r)
      = ({[ "timestamp"; "folder"; "eager"; "public_id" ]} : gset string)
    ∧ signed_params r
      = {[ "timestamp" := JStr (pretty (Date_now `div` 1000));
           "folder" :=
             field (spread defaultCreateSignedUploadUrlOptions
                      (default ∅ options)) "folder";
           "eager" :=
             field (spread defaultCreateSignedUploadUrlOptions
                      (default ∅ options)) "eager";
           "public_id" := JStr publicId ]}
    ∧ emitted (createSignedUploadUrl Date_now publicId resourceType options) s
      = [EvSign (signed_params r) (field (this_options s) "api_secret")]
    ∧ r !! "signature"
      = Some (JStr (api_sign_request (signed_params r)
                      (field (this_options s) "api_secret")))
    ∧ createSignedUploadUrl (1000 * (Date_now `div` 1000))
        publicId resourceType options s
      = (inl r, s1).
Proof.
  eexists _, _. split; [apply createSignedUploadUrl_run |].
  split; [unfold signed_params; rewrite !dom_insert_L, dom_singleton_L;
          set_solver |].
  split; [reflexivity |].
  split; [apply emitted_app; by rewrite createSignedUploadUrl_run |].
  split; [reflexivity |].
  rewrite createSignedUploadUrl_run.
  replace ((1000 * (Date_now `div` 1000)) `div` 1000)
    with (Date_now `div` 1000); [done |].
  rewrite Z.mul_comm, Z.div_mul; lia.
Qed.

(** C7.  The structure that [createSignedUploadUrl] returns has exactly the
    seven properties [url], [publicId], [apiKey], [timestamp], [eager],
    [folder] and [signature], whatever their values; [url] is the upload
    endpoint for the configured cloud name and the given resource type,
    [apiKey] is the configured key, and [timestamp] is the decimal form of
    the whole seconds of the clock at the call. *)
Theorem createSignedUploadUrl_shape Date_now publicId resourceType options s :
  ∃ r s1,
    createSignedUploadUrl Date_now publicId resourceType options s
    = (inl r, s1)
    ∧ dom r
      = ({[ "url"; "publicId"; "apiKey"; "timestamp"; "eager"; "folder";
            "signature" ]} : gset string)
    ∧ r !! "url"
      = Some (JStr ("https://api.cloudinary.com/v1_1/"
                      +:+ to_string (field (this_options s) "cloud_name")
                      +:+ "/" +:+ resourceType +:+ "/upload"))
    ∧ r !! "publicId" = Some (JStr publicId)
    ∧ r !! "apiKey" = Some (field (this_options s) "api_key")
    ∧ r !! "timestamp" = Some (JStr (pretty (Date_now `div` 1000)))
    ∧ 1000 * (Date_now `div` 1000) ≤ Date_now
      < 1000 * (Date_now `div` 1000) + 1000
    ∧ r !! "eager"
      = Some (field (spread defaultCreateSignedUploadUrlOptions
                       (default ∅ options)) "eager")
    ∧ r !! "folder"
      = Some (field (spread defaultCreateSignedUploadUrlOptions
                       (default ∅ options)) "folder")
    ∧ is_Some (r !! "signature").
Proof.
  eexists _, _. split; [apply createSignedUploadUrl_run |].
  split; [rewrite !dom_insert_L, dom_singleton_L; set_solver |].
  repeat split; try reflexivity; try (by eexists).
  - pose proof (Z.mul_div_le Date_now 1000). lia.
  - pose proof (Z.mul_succ_div_gt Date_now 1000). lia.
Qed.

(** C10.  Of the options given to [createSignedUploadUrl] only the
    properties [folder] and [eager] are read: two option values with the
    same [folder] and the same [eager] give the same result, signature
    input and returned structure alike, at the same clock. *)
Theorem createSignedUploadUrl_reads_folder_and_eager
    Date_now publicId resourceType (options1 options2 : option JsObject) s :
  default ∅ options1 !! "folder" = default ∅ options2 !! "folder" →
  default ∅ options1 !! "eager" = default ∅ options2 !! "eager" →
  createSignedUploadUrl Date_now publicId resourceType options1 s
  = createSignedUploadUrl Date_now publicId resourceType options2 s.
Proof.
  intros Hfolder Heager. rewrite !createSignedUploadUrl_run. simpl.
  assert (∀ k, default ∅ options1 !! k = default ∅ options2 !! k →
               field (spread defaultCreateSignedUploadUrlOptions
                        (default ∅ options1)) k
               = field (spread defaultCreateSignedUploadUrlOptions
                          (default ∅ options2)) k) as Hfield.
  { intros k Hk. unfold field. by rewrite !spread_lookup, Hk. }
  by rewrite (Hfield "folder" Hfolder), (Hfield "eager" Heager).
Qed.

(** ** The module options over the life of the service *)

Create HintDb quiet.

#[local] Hint Resolve quiet_ret quiet_throw quiet_bind quiet_this_dot_options
  quiet_get quiet_emits : quiet.
#[local] Hint Extern 1 (quiet (emit _)) =>
  apply quiet_emit; reflexivity : quiet.

Lemma quiet_promise_then p (h : JsValue → M JsValue) :
  (∀ v, quiet (h v)) → quiet (promise_then p h).
Proof.
  intros Hh s. unfold promise_then.
  destruct p as [|v|e]; [apply (quiet_ret Pending s) | |
                        apply (quiet_ret (Rejected e) s)].
  specialize (Hh v s). by destruct (h v s) as [[r|exn] s'].
Qed.

Lemma quiet_promise_catch p (h : JsValue → M JsValue) :
  (∀ v, quiet (h v)) → quiet (promise_catch p h).
Proof.
  intros Hh s. unfold promise_catch.
  destruct p as [|v|e]; [apply (quiet_ret Pending s) |
                        apply (quiet_ret (Fulfilled v) s) |].
  specialize (Hh e s). by destruct (h e s) as [[r|exn] s'].
Qed.

Lemma quiet_pingCloudinary_settled ping :
  quiet (pingCloudinary_settled ping).
Proof.
  unfold pingCloudinary_settled. apply quiet_bind.
  - apply quiet_promise_then. intros res. unfold pingCloudinary_then.
    eauto 10 with quiet.
  - intros p. apply quiet_promise_catch. intros err.
    unfold pingCloudinary_catch. eauto 10 with quiet.
Qed.

Lemma quiet_pipe stream : quiet (pipe stream).
Proof.
  unfold pipe. apply quiet_emits. rewrite count_config_app.
  assert (count_config (EvWrite <$> chunks stream) = O) as ->
    by (induction (chunks stream); simpl; auto).
  by destruct (ended stream).
Qed.

Lemma quiet_uploadFile file options sharpOptions :
  quiet (uploadFile file options sharpOptions).
Proof.
  unfold uploadFile, uploadFile_finish.
  destruct (truthy (of_optional sharpOptions) && match_image (mimetype file));
    eauto 10 using quiet_pipe with quiet.
Qed.

Lemma quiet_uploadFile_resized outcome u :
  quiet (uploadFile_resized outcome u).
Proof.
  unfold uploadFile_resized, uploadFile_finish.
  destruct (executor u), outcome; eauto 10 using quiet_pipe with quiet.
Qed.

Lemma quiet_uploadFile_callback error result u :
  quiet (uploadFile_callback error result u).
Proof.
  unfold uploadFile_callback. destruct (truthy error); eauto 10 with quiet.
Qed.

Lemma quiet_uploadFileByPath_callback error result u :
  quiet (uploadFileByPath_callback error result u).
Proof.
  unfold uploadFileByPath_callback.
  destruct (truthy error); eauto 10 with quiet.
Qed.

Lemma quiet_createSignedUploadUrl Date_now publicId resourceType options :
  quiet (createSignedUploadUrl Date_now publicId resourceType options).
Proof. unfold createSignedUploadUrl. eauto 10 with quiet. Qed.

Lemma quiet_invoke c : quiet (invoke c).
Proof.
  destruct c; unfold invoke, discard; apply quiet_bind;
    auto using quiet_uploadFile, quiet_createSignedUploadUrl with quiet.
  all: unfold pingCloudinary, uploadFileByPath, getAsset, listAssets,
         deleteAssets, updateAsset, renameAsset, deleteAsset,
         getTransformedUrl, getImageTag, getVideoTag, sdk;
    eauto 10 with quiet.
Qed.

Lemma gateway_step_quiet s s' :
  gateway_step s s' →
  this_options s' = this_options s
  ∧ ∃ es, trace s' = trace s ++ es ∧ count_config es = O.
Proof.
  intros [c s0|ping s0|outcome u s0|error result u s0|error result u s0].
  - apply quiet_invoke.
  - apply quiet_pingCloudinary_settled.
  - apply quiet_uploadFile_resized.
  - apply quiet_uploadFile_callback.
  - apply quiet_uploadFileByPath_callback.
Qed.

Lemma gateway_steps_quiet s s' :
  rtc gateway_step s s' →
  this_options s' = this_options s
  ∧ ∃ es, trace s' = trace s ++ es ∧ count_config es = O.
Proof.
  induction 1 as [s|s s1 s2 Hstep _ IH].
  - split; [done |]. exists []. by rewrite app_nil_r.
  - destruct (gateway_step_quiet _ _ Hstep) as (Ho & es & Htr & Hes).
    destruct IH as (Ho' & es' & Htr' & Hes').
    split; [congruence |]. exists (es ++ es').
    rewrite Htr', Htr, count_config_app, Hes, Hes'. by rewrite app_assoc.
Qed.

Lemma discard_emitted {A} (m : M A) s a s1 es :
  m s = (inl a, s1) → trace s1 = trace s ++ es → emitted (discard m) s = es.
Proof.
  intros Hm Htr. apply emitted_app. unfold discard.
  erewrite bind_inl by exact Hm. done.
Qed.

Ltac elems H :=
  repeat match type of H with
         | _ ∈ _ :: _ => apply elem_of_cons in H as [->|H]
         | _ ∈ [] => by apply elem_of_nil in H
         | _ ∈ _ ++ _ => apply elem_of_app in H as [H|H]
         | _ ∈ (if ?b is [] then _ else _) => destruct b
         end.

(** What a call passes on is what its caller supplied, or the resize
    options of [uploadFile] over their default width. *)
Lemma invoke_passes_options c s e o :
  e ∈ emitted (invoke c) s → o ∈ passed e →
  o ∈ supplied c
  ∨ ∃ file options so,
      c = CallUploadFile file options (Some so)
      ∧ match_image (mimetype file) = true
      ∧ o = JObj (spread {[ "width" := JNum 800 ]} so).
Proof.
  intros He Ho. destruct c; cbn [invoke] in He.
  3,5-13: erewrite discard_emitted in He by reflexivity;
    elems He; simpl in Ho; elems Ho; left; simpl; set_solver.
  3: erewrite discard_emitted in He
       by (apply createSignedUploadUrl_run || reflexivity);
    elems He; simpl in Ho; elems Ho.
  - erewrite discard_emitted in He by reflexivity.
    elems He. simpl in Ho. elems Ho.
  - destruct (truthy (of_optional sharpOptions) && match_image (mimetype file))
      eqn:Hcond.
    + destruct sharpOptions as [so|]; [| done].
      apply andb_true_iff in Hcond as [_ Himg].
      erewrite discard_emitted in He by (by apply uploadFile_image || done).
      elems He; simpl in Ho; elems Ho; [left; simpl; set_solver |].
      right. by exists file, options, so.
    + erewrite discard_emitted in He by (by apply uploadFile_plain || done).
      elems He; simpl in Ho; elems Ho; left; simpl; set_solver.
Qed.

(** C9, amended.  The module options are applied to the client handle once,
    by the constructor, and whatever the gateway runs afterwards (calls and
    resumed continuations, in any number and order) leaves the stored
    options as they were and applies no configuration again.  A call passes
    on the option objects of its caller as they are, except that
    [uploadFile] puts the resize options over a default width of 800, and
    [createSignedUploadUrl] signs the [folder] and [eager] of its options
    laid over one layer of defaults. *)
Theorem module_options_kept_and_options_forwarded :
  (∀ options tr s,
     rtc gateway_step (new_CloudinaryService options tr) s →
     this_options s = options
     ∧ count_config (trace s) = S (count_config tr)
     ∧ ∃ later,
         trace s = tr ++ EvConfig options :: later ∧ count_config later = O)
  ∧ (∀ c s e o,
       e ∈ emitted (invoke c) s → o ∈ passed e →
       o ∈ supplied c
       ∨ ∃ file options so,
           c = CallUploadFile file options (Some so)
           ∧ match_image (mimetype file) = true
           ∧ o = JObj (spread {[ "width" := JNum 800 ]} so))
  ∧ (∀ Date_now publicId resourceType options s,
       emitted
         (invoke
            (CallCreateSignedUploadUrl Date_now publicId resourceType options))
         s
       = [EvSign
            {[ "timestamp" := JStr (pretty (Date_now `div` 1000));
               "folder" :=
                 field (spread defaultCreateSignedUploadUrlOptions
                          (default ∅ options)) "folder";
               "eager" :=
                 field (spread defaultCreateSignedUploadUrlOptions
                          (default ∅ options)) "eager";
               "public_id" := JStr publicId ]}
            (field (this_options s) "api_secret")]).
Proof.
  split; [| split].
  - intros options tr s Hrun.
    destruct (gateway_steps_quiet _ _ Hrun) as (Ho & es & Htr & Hes).
    unfold new_CloudinaryService, Object_assign in *. simpl in *.
    rewrite (right_id_L ∅ (∪)) in Htr.
    split; [done |]. split.
    + rewrite Htr, !count_config_app, Hes. simpl. lia.
    + exists es. split; [| done]. by rewrite Htr, <- app_assoc.
  - apply invoke_passes_options.
  - intros. cbn [invoke].
    erewrite discard_emitted
      by (apply createSignedUploadUrl_run || reflexivity).
    reflexivity.
Qed.

(** ** Whole runs of an upload *)

Lemma logger_events_app tr1 tr2 :
  logger_events (tr1 ++ tr2) = logger_events tr1 ++ logger_events tr2.
Proof.
  induction tr1 as [|e tr1 IH]; simpl; [done |].
  destruct (is_logger e); simpl; by rewrite IH.
Qed.

Lemma channel_events_app tr1 tr2 :
  channel_events (tr1 ++ tr2) = channel_events tr1 ++ channel_events tr2.
Proof.
  induction tr1 as [|e tr1 IH]; simpl; [done |].
  destruct (is_write e); simpl; by rewrite IH.
Qed.

Lemma streamed_events buf :
  channel_events (streamed buf) = streamed buf
  ∧ logger_events (streamed buf) = [].
Proof. by destruct buf. Qed.

Lemma state_eta s :
  {| this_options := this_options s; trace := trace s ++ [] |} = s.
Proof. destruct s. simpl. by rewrite app_nil_r. Qed.

Lemma uploadFile_resized_run shrinkedImage u s :
  executor u = ExAwaitResize new_Readable →
  uploadFile_resized (inl shrinkedImage) u s
  = (inl {| returned := returned u; executor := ExCompleted |},
     {| this_options := this_options s;
        trace := trace s ++ streamed shrinkedImage |}).
Proof.
  intros Hex. unfold uploadFile_resized. rewrite Hex. run.
  by destruct shrinkedImage.
Qed.

(** Every sequence of inputs is absorbed; the promise takes the verdict of
    the first callback, every error callback is logged, and the channel gets
    what the first resize settlement yields, if the executor awaits one. *)
Lemma deliver_all_run inputs : ∀ u s,
  (∀ stream, executor u = ExAwaitResize stream → stream = new_Readable) →
  ∃ u' es,
    deliver_all inputs u s
    = (inl u',
       {| this_options := this_options s; trace := trace s ++ es |})
    ∧ returned u'
      = match returned u with
        | Pending => first_verdict inputs
        | p => p
        end
    ∧ logger_events es = error_logs inputs
    ∧ channel_events es
      = match executor u, first_resized inputs with
        | ExAwaitResize _, Some (inl shrinkedImage) => streamed shrinkedImage
        | _, _ => []
        end.
Proof.
  induction inputs as [|i rest IH]; intros u s Hnew.
  - exists u, []. simpl. unfold mret, M_ret. rewrite state_eta.
    repeat split; [by destruct (returned u) | by destruct (executor u)].
  - destruct i as [outcome|error result].
    + destruct (executor u) as [stream| |reason] eqn:Hex.
      * rewrite (Hnew stream eq_refl) in Hex.
        destruct outcome as [shrinkedImage|reason].
        -- destruct (IH {| returned := returned u; executor := ExCompleted |}
                       {| this_options := this_options s;
                          trace := trace s ++ streamed shrinkedImage |})
             as (u' & es & Hrun & Hret & Hlog & Hch); [done |].
           exists u', (streamed shrinkedImage ++ es).
           cbn [returned executor this_options trace] in *. split.
           { cbn [deliver_all deliver].
             erewrite bind_inl by (by apply uploadFile_resized_run).
             rewrite Hrun. by rewrite app_assoc. }
           cbn [first_verdict error_logs first_resized].
           rewrite logger_events_app, channel_events_app, Hlog, Hch.
           destruct (streamed_events shrinkedImage) as [-> ->].
           by rewrite app_nil_r.
        -- destruct (IH {| returned := returned u;
                           executor := ExRejected reason |} s)
             as (u' & es & Hrun & Hret & Hlog & Hch); [done |].
           exists u', es. simpl in *. split; [| done].
           cbn [deliver_all deliver]. erewrite bind_inl; [exact Hrun |].
           unfold uploadFile_resized. by rewrite Hex.
      * destruct (IH u s) as (u' & es & Hrun & Hret & Hlog & Hch);
          [intros stream Hs; congruence |].
        exists u', es. rewrite Hex in Hch. simpl in *. split; [| done].
        cbn [deliver_all deliver]. erewrite bind_inl; [exact Hrun |].
        unfold uploadFile_resized. by rewrite Hex.
      * destruct (IH u s) as (u' & es & Hrun & Hret & Hlog & Hch);
          [intros stream Hs; congruence |].
        exists u', es. rewrite Hex in Hch. simpl in *. split; [| done].
        cbn [deliver_all deliver]. erewrite bind_inl; [exact Hrun |].
        unfold uploadFile_resized. by rewrite Hex.
    + unfold verdict. cbn [first_verdict error_logs first_resized].
      destruct (truthy error) eqn:Herr.
      * destruct (IH {| returned := reject error (returned u);
                        executor := executor u |}
                    {| this_options := this_options s;
                       trace := trace s ++ [EvLogger LError error] |})
          as (u' & es & Hrun & Hret & Hlog & Hch); [done |].
        exists u', ([EvLogger LError error] ++ es). simpl in *. split.
        { cbn [deliver_all deliver]. erewrite bind_inl.
          2:{ unfold uploadFile_callback. rewrite Herr. run. reflexivity. }
          rewrite Hrun. by rewrite <- app_assoc. }
        unfold verdict. rewrite Herr, Hlog, Hret, Hch.
        by destruct (returned u).
      * destruct (IH {| returned := resolve result (returned u);
                        executor := executor u |} s)
          as (u' & es & Hrun & Hret & Hlog & Hch); [done |].
        exists u', es. simpl in *. split.
        { cbn [deliver_all deliver]. erewrite bind_inl; [exact Hrun |].
          unfold uploadFile_callback. by rewrite Herr. }
        unfold verdict. rewrite Herr, Hret. by destruct (returned u).
Qed.

Lemma uploadFile_deliver_all file options sharpOptions inputs s :
  ∃ u es,
    (uploadFile file options sharpOptions ≫= deliver_all inputs) s
    = (inl u, {| this_options := this_options s; trace := trace s ++ es |})
    ∧ returned u = first_verdict inputs
    ∧ logger_events es = error_logs inputs
    ∧ channel_events es
      = if truthy (of_optional sharpOptions) && match_image (mimetype file)
        then match first_resized inputs with
             | Some (inl shrinkedImage) => streamed shrinkedImage
             | _ => []
             end
        else streamed (buffer file).
Proof.
  destruct (truthy (of_optional sharpOptions) && match_image (mimetype file))
    eqn:Hcond.
  - destruct sharpOptions as [so|]; [| done].
    apply andb_true_iff in Hcond as [_ Himg].
    pose proof (uploadFile_image file options so s Himg) as Hup.
    destruct (deliver_all_run inputs
                {| returned := Pending; executor := ExAwaitResize new_Readable |}
                {| this_options := this_options s;
                   trace := trace s
                            ++ [EvUploadStream (of_optional options);
                                EvResize (buffer file)
                                  (spread {[ "width" := JNum 800 ]} so)] |})
      as (u & es & Hrun & Hret & Hlog & Hch).
    { intros stream Hs. by injection Hs. }
    cbn [returned executor this_options trace] in *.
    eexists u, (_ ++ es). split.
    { erewrite bind_inl by exact Hup. rewrite Hrun. by rewrite <- app_assoc. }
    rewrite logger_events_app, channel_events_app, Hlog, Hch. done.
  - pose proof (uploadFile_plain file options sharpOptions s Hcond) as Hup.
    destruct (deliver_all_run inputs
                {| returned := Pending; executor := ExCompleted |}
                {| this_options := this_options s;
                   trace := trace s
                            ++ [EvUploadStream (of_optional options)]
                            ++ (if buffer file is [] then []
                                else [EvWrite (buffer file)])
                            ++ [EvEnd] |})
      as (u & es & Hrun & Hret & Hlog & Hch); [done |].
    cbn [returned executor this_options trace] in *.
    eexists u, (_ ++ es). split.
    { erewrite bind_inl by exact Hup. rewrite Hrun. by rewrite <- app_assoc. }
    rewrite logger_events_app, channel_events_app, Hlog, Hch.
    split; [done |]. rewrite !app_nil_r. by destruct (buffer file).
Qed.

Lemma deliver_all_by_path_run callbacks : ∀ u s,
  ∃ u' es,
    deliver_all_by_path callbacks u s
    = (inl u',
       {| this_options := this_options s; trace := trace s ++ es |})
    ∧ returned u'
      = match returned u with
        | Pending => first_verdict ((λ c, InCallback c.1 c.2) <$> callbacks)
        | p => p
        end
    ∧ es = error_logs ((λ c, InCallback c.1 c.2) <$> callbacks).
Proof.
  induction callbacks as [|[error result] rest IH]; intros u s.
  - exists u, []. simpl. unfold mret, M_ret. rewrite state_eta.
    split; [done |]. split; [by destruct (returned u) | done].
  - cbn [fmap list_fmap first_verdict error_logs fst snd].
    unfold verdict. destruct (truthy error) eqn:Herr.
    + destruct (IH {| returned := reject error (returned u);
                      executor := executor u |}
                  {| this_options := this_options s;
                     trace := trace s ++ [EvLogger LError error] |})
        as (u' & es & Hrun & Hret & Hes).
      exists u', ([EvLogger LError error] ++ es).
      cbn [returned executor this_options trace] in *. split.
      { cbn [deliver_all_by_path]. erewrite bind_inl.
        2:{ unfold uploadFileByPath_callback. rewrite Herr. run.
            reflexivity. }
        rewrite Hrun. by rewrite <- app_assoc. }
      rewrite Hret, Hes. by destruct (returned u).
    + destruct (IH {| returned := resolve result (returned u);
                      executor := executor u |} s)
        as (u' & es & Hrun & Hret & Hes).
      exists u', es. cbn [returned executor this_options trace] in *. split.
      { cbn [deliver_all_by_path]. erewrite bind_inl; [exact Hrun |].
        unfold uploadFileByPath_callback. by rewrite Herr. }
      rewrite Hret. by destruct (returned u).
Qed.

(** X1.  The promise that [uploadFile] or [uploadFileByPath] returned is
    decided by the first call of the upload callback alone: it is pending
    as long as no callback has arrived, whatever the resize did, and after
    the first callback no later callback or resize settlement changes it. *)
Theorem upload_promise_follows_first_callback
    file filePath options sharpOptions inputs callbacks s :
  (∃ u s1,
     (uploadFile file options sharpOptions ≫= deliver_all inputs) s
     = (inl u, s1)
     ∧ returned u = first_verdict inputs)
  ∧ (∃ u s1,
       (uploadFileByPath filePath options ≫= deliver_all_by_path callbacks) s
       = (inl u, s1)
       ∧ returned u
         = first_verdict ((λ c, InCallback c.1 c.2) <$> callbacks)).
Proof.
  split.
  - destruct (uploadFile_deliver_all file options sharpOptions inputs s)
      as (u & es & Hrun & Hret & _).
    by eexists _, _.
  - destruct (deliver_all_by_path_run callbacks
                {| returned := Pending; executor := ExCompleted |}
                {| this_options := this_options s;
                   trace := trace s
                            ++ [EvUpload filePath (of_optional options)] |})
      as (u & es & Hrun & Hret & _).
    exists u. eexists. split; [| exact Hret].
    erewrite bind_inl by reflexivity. exact Hrun.
Qed.

(** X2.  Over a whole upload the logger is called exactly once, at error
    severity and with the error itself, for every callback that carries an
    error, in their order, also when the promise was settled before; a
    callback without an error and a resize, failed or not, log nothing. *)
Theorem upload_logs_each_error_callback
    file filePath options sharpOptions inputs callbacks s :
  logger_events
    (emitted (uploadFile file options sharpOptions ≫= deliver_all inputs) s)
  = error_logs inputs
  ∧ logger_events
      (emitted
         (uploadFileByPath filePath options ≫= deliver_all_by_path callbacks)
         s)
    = error_logs ((λ c, InCallback c.1 c.2) <$> callbacks).
Proof.
  split.
  - destruct (uploadFile_deliver_all file options sharpOptions inputs s)
      as (u & es & Hrun & _ & Hlog & _).
    erewrite emitted_app by (by rewrite Hrun). exact Hlog.
  - destruct (deliver_all_by_path_run callbacks
                {| returned := Pending; executor := ExCompleted |}
                {| this_options := this_options s;
                   trace := trace s
                            ++ [EvUpload filePath (of_optional options)] |})
      as (u & es & Hrun & _ & Hes).
    erewrite (emitted_app _ _ (EvUpload filePath (of_optional options) :: es)).
    2:{ erewrite bind_inl by reflexivity. rewrite Hrun. simpl.
        by rewrite <- app_assoc. }
    simpl. rewrite Hes. clear.
    induction callbacks as [|[error result] rest IH]; [done |].
    cbn [fmap list_fmap error_logs fst snd] in *.
    rewrite logger_events_app, IH. by destruct (truthy error).
Qed.

(** X3.  What [uploadFile] puts on the upload channel over a whole run: the
    file's buffer and one end-of-input signal when no resize is due; the
    output of the resize and one end-of-input signal when the resize
    succeeds; and nothing at all, not even the end-of-input signal, when the
    resize fails or never settles, whatever callbacks arrive. *)
Theorem uploadFile_channel_contents file options sharpOptions inputs s :
  channel_events
    (emitted (uploadFile file options sharpOptions ≫= deliver_all inputs) s)
  = if truthy (of_optional sharpOptions) && match_image (mimetype file)
    then match first_resized inputs with
         | Some (inl shrinkedImage) => streamed shrinkedImage
         | _ => []
         end
    else streamed (buffer file).
Proof.
  destruct (uploadFile_deliver_all file options sharpOptions inputs s)
    as (u & es & Hrun & _ & _ & Hch).
  erewrite emitted_app by (by rewrite Hrun). exact Hch.
Qed.

(** ** The last promise of the ping chain *)

(** X4.  The chain [ping().then(...).catch(...)] ends fulfilled in every
    case but one: when the probe is rejected with [undefined] or [null],
    reading [err.error] throws inside the catch handler, so the chain ends
    rejected (a rejection nobody handles) after the warning alone has been
    logged. *)
Theorem pingCloudinary_chain_rejected_iff ping s :
  ∃ chain s1,
    pingCloudinary_settled ping s = (inl chain, s1)
    ∧ ((∃ exn, chain = Rejected exn)
       ↔ ping = Rejected JUndefined ∨ ping = Rejected JNull)
    ∧ match ping with
      | Rejected (JUndefined | JNull) =>
          emitted (pingCloudinary_settled ping) s
          = [EvLogger LWarn (JStr "Cloudinary connection failed.")]
      | Pending => chain = Pending
      | _ => chain = Fulfilled JUndefined
      end.
Proof.
  destruct ping as [|res|err]; [| destruct res | destruct err];
    eexists _, _; (split; [reflexivity |]); split;
    try (apply emitted_app; reflexivity); try reflexivity;
    (split; [intros [exn Hexn]; discriminate || eauto
            | intros [Hp | Hp]; discriminate || eauto]).
Qed.

(** ** More on signed upload URLs *)

(** X5.  In [createSignedUploadUrl] a [folder] or [eager] property of the
    caller's options wins over the default, also when its value is
    [undefined]; only a property the caller does not have falls back to the
    default, and to [undefined] when there is no default either. *)
Theorem createSignedUploadUrl_options_override_defaults
    Date_now publicId resourceType options s :
  ∃ r s1,
    createSignedUploadUrl Date_now publicId resourceType options s
    = (inl r, s1)
    ∧ r !! "folder"
      = Some match default ∅ options !! "folder" with
             | Some own => own
             | None =>
                 default JUndefined
                   (defaultCreateSignedUploadUrlOptions !! "folder")
             end
    ∧ r !! "eager"
      = Some match default ∅ options !! "eager" with
             | Some own => own
             | None =>
                 default JUndefined
                   (defaultCreateSignedUploadUrlOptions !! "eager")
             end.
Proof.
  eexists _, _. split; [apply createSignedUploadUrl_run |].
  assert (∀ k,
            field (spread defaultCreateSignedUploadUrlOptions
                     (default ∅ options)) k
            = match default ∅ options !! k with
              | Some own => own
              | None =>
                  default JUndefined (defaultCreateSignedUploadUrlOptions !! k)
              end) as Hfield.
  { intros k. unfold field. rewrite spread_lookup.
    by destruct (default ∅ options !! k). }
  split.
  - rewrite <- Hfield. reflexivity.
  - rewrite <- Hfield. reflexivity.
Qed.

(** X6.  The configured secret reaches the caller through the signature
    only: two services whose options differ in [api_secret] alone return,
    for the same call at the same clock, structures that agree on every
    property other than [signature]. *)
Theorem createSignedUploadUrl_secret_only_in_signature
    Date_now publicId resourceType options s1 s2 :
  delete "api_secret" (this_options s1)
  = delete "api_secret" (this_options s2) →
  ∃ r1 t1 r2 t2,
    createSignedUploadUrl Date_now publicId resourceType options s1
    = (inl r1, t1)
    ∧ createSignedUploadUrl Date_now publicId resourceType options s2
      = (inl r2, t2)
    ∧ delete "signature" r1 = delete "signature" r2.
Proof.
  intros Hsame.
  assert (∀ k, k ≠ "api_secret" →
               field (this_options s1) k = field (this_options s2) k)
    as Hfield.
  { intros k Hk. unfold field.
    rewrite <- (lookup_delete_ne (this_options s1) "api_secret" k) by done.
    rewrite <- (lookup_delete_ne (this_options s2) "api_secret" k) by done.
    by rewrite Hsame. }
  eexists _, _, _, _.
  split; [apply createSignedUploadUrl_run |].
  split; [apply createSignedUploadUrl_run |].
  cbn zeta.
  rewrite (Hfield "cloud_name") by done.
  rewrite (Hfield "api_key") by done.
  rewrite !delete_insert_ne by done.
  by rewrite !delete_singleton_eq.
Qed.



(** X10.  Nothing the gateway does between two signings changes their
    result: after any run of calls and resumed continuations,
    [createSignedUploadUrl] returns, for the same arguments at the same
    clock, the structure it would have returned before. *)
Theorem createSignedUploadUrl_unaffected_by_gateway_activity
    Date_now publicId resourceType options s s' :
  rtc gateway_step s s' →
  (createSignedUploadUrl Date_now publicId resourceType options s').1
  = (createSignedUploadUrl Date_now publicId resourceType options s).1.
Proof.
  intros Hrun. destruct (gateway_steps_quiet _ _ Hrun) as [Hopts _].
  rewrite !createSignedUploadUrl_run. cbn zeta. simpl. by rewrite Hopts.
Qed.

(** ** Sequences of passthrough calls *)

Lemma invoke_passthrough c s :
  is_passthrough c = true →
  ∃ e,
    invoke c s
    = (inl (),
       {| this_options := this_options s; trace := trace s ++ [e] |})
    ∧ passed e = supplied c
    ∧ is_logger e = false.
Proof.
  destruct c; try discriminate; intros _; eexists; (split; [reflexivity |]);
    by split.
Qed.

Lemma invoke_all_passthroughs cs : ∀ s,
  forallb is_passthrough cs = true →
  ∃ es,
    invoke_all cs s
    = (inl (), {| this_options := this_options s; trace := trace s ++ es |})
    ∧ length es = length cs
    ∧ concat (passed <$> es) = concat (supplied <$> cs)
    ∧ logger_events es = [].
Proof.
  induction cs as [|c rest IH]; intros s Hall.
  - exists []. simpl. unfold mret, M_ret. by rewrite state_eta.
  - simpl in Hall. apply andb_true_iff in Hall as [Hc Hrest].
    destruct (invoke_passthrough c s Hc) as (e & Hrun & Hpassed & Hlog).
    destruct (IH {| this_options := this_options s;
                    trace := trace s ++ [e] |} Hrest)
      as (es & Hruns & Hlen & Hopts & Hlogs).
    exists (e :: es). cbn [this_options trace] in *. split.
    { cbn [invoke_all]. erewrite bind_inl by exact Hrun.
      rewrite Hruns. by rewrite <- app_assoc. }
    cbn [length fmap list_fmap concat logger_events].
    rewrite Hlen, Hpassed, Hlog, Hlogs. by rewrite <- Hopts.
Qed.

(** X9.  A sequence of passthrough calls ([getAsset], [listAssets],
    [deleteAssets], [updateAsset], [renameAsset], [deleteAsset],
    [getTransformedUrl], [getImageTag], [getVideoTag]) makes one SDK call
    for each call, carrying the options of the callers unchanged and in
    order, logs nothing and leaves the stored module options as they were. *)
Theorem passthroughs_forward_in_order cs s :
  forallb is_passthrough cs = true →
  ∃ s1,
    invoke_all cs s = (inl (), s1)
    ∧ this_options s1 = this_options s
    ∧ length (emitted (invoke_all cs) s) = length cs
    ∧ concat (passed <$> emitted (invoke_all cs) s)
      = concat (supplied <$> cs)
    ∧ logger_events (emitted (invoke_all cs) s) = [].
Proof.
  intros Hall.
  destruct (invoke_all_passthroughs cs s Hall)
    as (es & Hrun & Hlen & Hopts & Hlogs).
  eexists. split; [exact Hrun |]. split; [done |].
  by erewrite emitted_app by (by rewrite Hrun).
Qed.

End Gateway.

(** ** Instances *)

Lemma module_options_kept_and_options_forwarded_witness :
  rtc (gateway_step sample_sign ∅) (new_CloudinaryService sample_options [])
    (invoke sample_sign ∅ (CallUploadFileByPath "/tmp/cat.jpg" None)
       sample_service).2
  ∧ this_options
      (invoke sample_sign ∅ (CallUploadFileByPath "/tmp/cat.jpg" None)
         sample_service).2
    = sample_options.
Proof.
  assert (rtc (gateway_step sample_sign ∅)
            (new_CloudinaryService sample_options [])
            (invoke sample_sign ∅ (CallUploadFileByPath "/tmp/cat.jpg" None)
               sample_service).2) as Hrun
    by (apply rtc_once, step_invoke).
  split; [exact Hrun |].
  destruct (module_options_kept_and_options_forwarded sample_sign ∅)
    as (Hkept & _ & _).
  exact (proj1 (Hkept _ _ _ Hrun)).
Defined.

(** C9, as stated, fails: [uploadFile] also merges a default under an
    option object of its caller.  With the resize options [{}] on a PNG,
    [sharp] is handed [{ width: 800 }], which the caller did not supply. *)
Lemma defaults_only_when_signing_fails :
  ¬ defaults_only_when_signing sample_sign ∅.
Proof.
  intros Hclaim.
  specialize
    (Hclaim (CallUploadFile sample_png None (Some ∅)) sample_service
       (EvResize (buffer sample_png) {[ "width" := JNum 800 ]})
       (JObj {[ "width" := JNum 800 ]})).
  assert (JObj {[ "width" := JNum 800 ]}
          ∈ supplied (CallUploadFile sample_png None (Some ∅))) as Hin.
  { apply Hclaim.
    - discriminate.
    - apply list_elem_of_further, list_elem_of_here.
    - apply list_elem_of_here. }
  simpl in Hin.
  apply elem_of_cons in Hin as [Heq | Hin]; [discriminate |].
  apply list_elem_of_singleton in Hin.
  apply (f_equal (λ v, match v with
                       | JObj props => props !! "width"
                       | _ => None
                       end)) in Hin.
  vm_compute in Hin. discriminate.
Qed.

Lemma createSignedUploadUrl_reads_folder_and_eager_witness :
  default ∅ (Some ({[ "folder" := JStr "cats"; "tags" := JStr "x" ]}
                    : JsObject)) !! "folder"
  = default ∅ (Some ({[ "folder" := JStr "cats" ]} : JsObject)) !! "folder"
  ∧ createSignedUploadUrl sample_sign ∅ 1700000000123 "abc" "image"
      (Some {[ "folder" := JStr "cats"; "tags" := JStr "x" ]}) sample_service
    = createSignedUploadUrl sample_sign ∅ 1700000000123 "abc" "image"
        (Some {[ "folder" := JStr "cats" ]}) sample_service.
Proof.
  split; [reflexivity |].
  apply (createSignedUploadUrl_reads_folder_and_eager sample_sign ∅);
    reflexivity.
Defined.

(** ** The definitions on concrete inputs *)

Example match_image_png : match_image "image/png" = true.
Proof. reflexivity. Qed.

Example match_image_is_anchored : match_image "application/image" = false.
Proof. reflexivity. Qed.

Example match_image_is_case_sensitive : match_image "Image/png" = false.
Proof. reflexivity. Qed.

Example to_string_array : to_string (JArr [JNum 1; JNull; JStr "a"]) = "1,,a".
Proof. reflexivity. Qed.

Example whole_seconds : pretty (1700000000999 `div` 1000) = "1700000000".
Proof. reflexivity. Qed.

Example whole_seconds_before_epoch : pretty ((-1) `div` 1000) = "-1".
Proof. reflexivity. Qed.

Example resize_options_default :
  spread {[ "width" := JNum 800 ]} {[ "height" := JNum 200 ]}
  = ({[ "width" := JNum 800; "height" := JNum 200 ]} : JsObject).
Proof. by vm_compute. Qed.

Example resize_options_override :
  spread {[ "width" := JNum 800 ]}
    {[ "width" := JNum 300; "fit" := JStr "cover" ]}
  = ({[ "width" := JNum 300; "fit" := JStr "cover" ]} : JsObject).
Proof. by vm_compute. Qed.

Example empty_buffer_is_not_written :
  emitted (uploadFile {| buffer := []; mimetype := "text/plain" |} None None)
    sample_service
  = [EvUploadStream JUndefined; EvEnd].
Proof. reflexivity. Qed.

Example ping_failure_is_logged :
  trace
    (pingCloudinary_settled
       (Rejected (JObj {[ "error" := JObj {[ "http_code" := JNum 401 ]} ]}))
       {| this_options := ∅; trace := [EvPing] |}).2
  = [EvPing;
     EvLogger LWarn (JStr "Cloudinary connection failed.");
     EvLogger LError (JObj {[ "http_code" := JNum 401 ]})].
Proof. reflexivity. Qed.

Example signed_upload_url_of_sample :
  ∃ r s1,
    createSignedUploadUrl sample_sign ∅ 1700000000999 "abc" "image" (Some ∅)
      sample_service
    = (inl r, s1)
    ∧ r !! "url"
      = Some (JStr "https://api.cloudinary.com/v1_1/demo/image/upload")
    ∧ r !! "apiKey" = Some (JStr "1234")
    ∧ r !! "timestamp" = Some (JStr "1700000000")
    ∧ r !! "folder" = Some JUndefined
    ∧ r !! "signature" = Some (JStr "abc@1700000000s3cret")
    ∧ sample_sign (signed_params r) (JStr "s3cret") = "abc@1700000000s3cret".
Proof.
  eexists _, _. split; [apply createSignedUploadUrl_run |].
  repeat split.
Qed.

(** ** Instances of the further properties *)

Lemma pingCloudinary_chain_rejected_iff_witness :
  ∃ chain s1,
    pingCloudinary_settled (Rejected JNull) sample_service = (inl chain, s1)
    ∧ ∃ exn, chain = Rejected exn.
Proof.
  destruct (pingCloudinary_chain_rejected_iff (Rejected JNull) sample_service)
    as (chain & s1 & Hrun & Hiff & _).
  exists chain, s1. split; [exact Hrun |]. apply Hiff. by right.
Defined.

Lemma createSignedUploadUrl_secret_only_in_signature_witness :
  delete "api_secret" (this_options sample_service)
  = delete "api_secret" (this_options other_secret_service)
  ∧ ∃ r1 t1 r2 t2,
      createSignedUploadUrl sample_sign ∅ 1700000000999 "abc" "image" None
        sample_service
      = (inl r1, t1)
      ∧ createSignedUploadUrl sample_sign ∅ 1700000000999 "abc" "image" None
          other_secret_service
        = (inl r2, t2)
      ∧ delete "signature" r1 = delete "signature" r2.
Proof.
  assert (delete "api_secret" (this_options sample_service)
          = delete "api_secret" (this_options other_secret_service)) as Hsame
    by (by vm_compute).
  split; [exact Hsame |].
  exact (createSignedUploadUrl_secret_only_in_signature sample_sign ∅
           1700000000999 "abc" "image" None
           sample_service other_secret_service Hsame).
Defined.



Lemma passthroughs_forward_in_order_witness :
  forallb is_passthrough
    [CallDeleteAssets ["a"; "b"] JUndefined;
     CallGetAsset "a" (JObj {[ "colors" := JBool true ]})]
  = true
  ∧ concat
      (passed
         <$> emitted
               (invoke_all sample_sign ∅
                  [CallDeleteAssets ["a"; "b"] JUndefined;
                   CallGetAsset "a" (JObj {[ "colors" := JBool true ]})])
               sample_service)
    = [JUndefined; JObj {[ "colors" := JBool true ]}].
Proof.
  split; [reflexivity |].
  destruct (passthroughs_forward_in_order sample_sign ∅
              [CallDeleteAssets ["a"; "b"] JUndefined;
               CallGetAsset "a" (JObj {[ "colors" := JBool true ]})]
              sample_service eq_refl)
    as (s1 & _ & _ & _ & Hopts & _).
  exact Hopts.
Defined.

Lemma createSignedUploadUrl_unaffected_by_gateway_activity_witness :
  rtc (gateway_step sample_sign ∅) sample_service
    (invoke sample_sign ∅ (CallUploadFile sample_png None (Some ∅))
       sample_service).2
  ∧ (createSignedUploadUrl sample_sign ∅ 1700000000999 "abc" "image" None
       (invoke sample_sign ∅ (CallUploadFile sample_png None (Some ∅))
          sample_service).2).1
    = (createSignedUploadUrl sample_sign ∅ 1700000000999 "abc" "image" None
         sample_service).1.
Proof.
  assert (rtc (gateway_step sample_sign ∅) sample_service
            (invoke sample_sign ∅ (CallUploadFile sample_png None (Some ∅))
               sample_service).2) as Hrun
    by (apply rtc_once, step_invoke).
  split; [exact Hrun |].
  exact (createSignedUploadUrl_unaffected_by_gateway_activity sample_sign ∅
           1700000000999 "abc" "image" None _ _ Hrun).
Defined.
